(** * trello-clone: configuration, health endpoints and the mutation core

    A shallow embedding of the Python sources
    - [src/shared/config/settings.py] (class [Settings]),
    - [src/main.py] (the FastAPI application and its health endpoints),
    together with a model of the mutation-and-consistency engine that the
    specification describes (Repository, Outbox Writer, Unit of Work) and
    for which the repository holds no code yet
    ([src/domain/users/repositories.py] contains imports and a commented
    example only). *)

From Stdlib Require Import Ascii String.
From stdpp Require Import gmap list fin_maps.

Local Open Scope Z_scope.

Set Warnings "-register-all".

(** ** Python strings

    A Python [str] is a sequence of Unicode code points; a code point is
    modelled as an [N]. *)

Abbreviation str := (list N).

(** An ASCII literal of the source, as a [str]. *)
Definition lit (s : string) : str :=
  map N_of_ascii (list_ascii_of_string s).

(** [==] on two [str] values. *)
Definition str_eqb (a b : str) : bool := bool_decide (a = b).

(** Truthiness of a [str]: the empty string is falsy. *)
Definition truthy (s : str) : bool :=
  match s with
  | [] => false
  | _ :: _ => true
  end.

(** [str.isspace] on one code point: the code points CPython treats as
    whitespace (bidirectional class WS, B or S, or category Zs). *)
Definition isspace (c : N) : bool :=
  ((9 <=? c) && (c <=? 13) ||
   (28 <=? c) && (c <=? 32) ||
   (c =? 133) || (c =? 160) || (c =? 5760) ||
   (8192 <=? c) && (c <=? 8202) ||
   (c =? 8232) || (c =? 8233) || (c =? 8239) || (c =? 8287) ||
   (c =? 12288))%N.

(** [s.lstrip()], [s.rstrip()] and [s.strip()] without argument. *)
Fixpoint lstrip (s : str) : str :=
  match s with
  | [] => []
  | c :: s' => if isspace c then lstrip s' else s
  end.

Definition rstrip (s : str) : str := reverse (lstrip (reverse s)).

Definition strip (s : str) : str := rstrip (lstrip s).

(** [s.split(sep)] for a one-character separator: every occurrence of
    [sep] ends a piece, so a string with [k] separators has [k + 1]
    pieces and the empty string has one piece, the empty string. *)
Fixpoint split (sep : N) (s : str) : list str :=
  match s with
  | [] => [[]]
  | c :: s' =>
      if (c =? sep)%N then [] :: split sep s'
      else match split sep s' with
           | p :: ps => (c :: p) :: ps
           | [] => [[c]]
           end
  end.

(** [sep.join(pieces)]. *)
Fixpoint join (sep : N) (ps : list str) : str :=
  match ps with
  | [] => []
  | [p] => p
  | p :: ps' => p ++ sep :: join sep ps'
  end.

Definition comma : N := 44%N.

(** The comma-separated pieces of a string, said without [split]: a
    non-empty list of comma-free strings whose comma-join is the
    string. *)
Definition comma_pieces (s : str) (ps : list str) : Prop :=
  ps ≠ [] ∧ Forall (fun p => comma ∉ p) ps ∧ join comma ps = s.

(** A string made of whitespace only. *)
Definition blank (s : str) : Prop := Forall (fun c => isspace c = true) s.

(** [t] is [p] with its surrounding whitespace removed: [p] is [t]
    between two runs of whitespace, and [t] neither starts nor ends with
    whitespace. *)
Definition stripped (p t : str) : Prop :=
  ∃ l r, p = l ++ t ++ r ∧ blank l ∧ blank r ∧
         (∀ c, head t = Some c → isspace c = false) ∧
         (∀ c, last t = Some c → isspace c = false).

(** ** [src/shared/config/settings.py] *)

Module settings.

(** The raw value handed to the ["before"] validator of [cors_origins]:
    [v: str | list[str]]. *)
Inductive cors_value : Type :=
  | VStr (s : str)
  | VList (l : list str).

Record Settings : Type := {
  (* Application *)
  app_name : str;
  app_version : str;
  environment : str;
  debug : bool;
  log_level : str;
  (* Database *)
  database_url : str;
  database_pool_size : Z;
  database_max_overflow : Z;
  (* Redis *)
  redis_url : str;
  redis_cache_ttl : Z;
  (* Celery *)
  celery_broker_url : str;
  celery_result_backend : str;
  (* Security *)
  secret_key : str;
  jwt_secret_key : str;
  jwt_algorithm : str;
  jwt_access_token_expire_minutes : Z;
  jwt_refresh_token_expire_days : Z;
  (* CORS *)
  cors_origins : list str;
  cors_allow_credentials : bool;
  (* AWS *)
  aws_region : str;
  aws_access_key_id : str;
  aws_secret_access_key : str;
  (* Email *)
  smtp_host : str;
  smtp_port : Z;
  smtp_user : str;
  smtp_password : str;
  email_from : str;
  (* Observability *)
  otel_exporter_otlp_endpoint : str;
  prometheus_metrics_port : Z
}.

(** The field defaults of the class; the six fields declared with
    [Field(...)] have none and are arguments. *)
Definition defaults
    (database_url redis_url celery_broker_url celery_result_backend
     secret_key jwt_secret_key : str) : Settings :=
  {| app_name := lit "Trello Clone";
     app_version := lit "0.1.0";
     environment := lit "development";
     debug := false;
     log_level := lit "INFO";
     database_url := database_url;
     database_pool_size := 20;
     database_max_overflow := 10;
     redis_url := redis_url;
     redis_cache_ttl := 300;
     celery_broker_url := celery_broker_url;
     celery_result_backend := celery_result_backend;
     secret_key := secret_key;
     jwt_secret_key := jwt_secret_key;
     jwt_algorithm := lit "HS256";
     jwt_access_token_expire_minutes := 30;
     jwt_refresh_token_expire_days := 7;
     cors_origins := [lit "http://localhost:3000"];
     cors_allow_credentials := true;
     aws_region := lit "us-east-1";
     aws_access_key_id := [];
     aws_secret_access_key := [];
     smtp_host := lit "smtp.gmail.com";
     smtp_port := 587;
     smtp_user := [];
     smtp_password := [];
     email_from := lit "noreply@trello-clone.com";
     otel_exporter_otlp_endpoint := lit "http://localhost:4318";
     prometheus_metrics_port := 9090 |}.

(** [Settings.parse_cors_origins(cls, v)].  The function first calls
    [print(v)]: the first component is what it writes to standard output
    (the printed object; its rendering is not modelled), the second is the
    returned value.

    The comprehension
    [[origin.strip() for origin in v.split(",") if origin.strip()]]
    visits the pieces in order and keeps the stripped piece when it is
    truthy. *)
Definition parse_cors_origins (v : cors_value) : list cors_value * list str :=
  ([v],
   match v with
   | VStr s =>
       flat_map
         (fun origin => if truthy (strip origin) then [strip origin] else [])
         (split comma s)
   | VList l => l
   end).

(** The [is_development] and [is_production] properties. *)
Definition is_development (self : Settings) : bool :=
  str_eqb (environment self) (lit "development").

Definition is_production (self : Settings) : bool :=
  str_eqb (environment self) (lit "production").

(** A settings object that differs in its [environment] only (what
    setting the [ENVIRONMENT] variable does). *)
Definition with_environment (env : str) (s : Settings) : Settings :=
  {| app_name := app_name s;
     app_version := app_version s;
     environment := env;
     debug := debug s;
     log_level := log_level s;
     database_url := database_url s;
     database_pool_size := database_pool_size s;
     database_max_overflow := database_max_overflow s;
     redis_url := redis_url s;
     redis_cache_ttl := redis_cache_ttl s;
     celery_broker_url := celery_broker_url s;
     celery_result_backend := celery_result_backend s;
     secret_key := secret_key s;
     jwt_secret_key := jwt_secret_key s;
     jwt_algorithm := jwt_algorithm s;
     jwt_access_token_expire_minutes := jwt_access_token_expire_minutes s;
     jwt_refresh_token_expire_days := jwt_refresh_token_expire_days s;
     cors_origins := cors_origins s;
     cors_allow_credentials := cors_allow_credentials s;
     aws_region := aws_region s;
     aws_access_key_id := aws_access_key_id s;
     aws_secret_access_key := aws_secret_access_key s;
     smtp_host := smtp_host s;
     smtp_port := smtp_port s;
     smtp_user := smtp_user s;
     smtp_password := smtp_password s;
     email_from := email_from s;
     otel_exporter_otlp_endpoint := otel_exporter_otlp_endpoint s;
     prometheus_metrics_port := prometheus_metrics_port s |}.

(** What [parse_cors_origins] promises about one origin it returns
    for a string input: it is not empty, holds no comma, and neither
    starts nor ends with whitespace. *)
Definition clean_origin (t : str) : Prop :=
  t ≠ [] ∧ (comma ∉ t) ∧
  (∀ c, head t = Some c → isspace c = false) ∧
  (∀ c, last t = Some c → isspace c = false).

(** The comprehension of [parse_cors_origins] on a list of pieces:
    [[origin.strip() for origin in pieces if origin.strip()]]. *)
Definition kept (ps : list str) : list str :=
  flat_map (fun origin => if truthy (strip origin) then [strip origin] else []) ps.

(** [q] is [p] with whitespace added in front and behind. *)
Definition padded (p q : str) : Prop :=
  ∃ l r, blank l ∧ blank r ∧ q = l ++ p ++ r.

(** A character that leaves no trace in the parsed origins: whitespace
    or a comma. *)
Definition filler (c : N) : Prop := isspace c = true ∨ c = comma.

Section cached.

(** [Settings()] reads the process environment and the [.env] file and
    validates what it finds; pydantic does this, not the repository, so
    the constructor is a parameter here: [World] is everything it reads,
    and [None] stands for the validation error it raises. *)
Context {World : Type} (new_Settings : World → option Settings).

(** [get_settings()], decorated with [@lru_cache]: a function without
    arguments has a single cache slot.  The first component is the slot
    after the call, the second what the call returns ([None] when
    [Settings()] raised; [lru_cache] stores no result then). *)
Definition get_settings (w : World) (cache : option Settings)
    : option Settings * option Settings :=
  match cache with
  | Some s => (Some s, Some s)
  | None =>
      match new_Settings w with
      | Some s => (Some s, Some s)
      | None => (None, None)
      end
  end.

(** Successive calls of [get_settings()], each in the world of its
    moment; the results, in order. *)
Fixpoint get_settings_calls (ws : list World) (cache : option Settings)
    : list (option Settings) :=
  match ws with
  | [] => []
  | w :: ws' =>
      let (cache', r) := get_settings w cache in
      r :: get_settings_calls ws' cache'
  end.

End cached.

End settings.

(** ** [src/main.py] *)

Module main.

Import settings.

(** JSON content of a response: strings and objects are all the
    endpoints use.  An object keeps its keys in insertion order, as a
    Python [dict] does. *)
Inductive JSON : Type :=
  | JStr (s : str)
  | JObj (fields : list (str * JSON)).

(** [d[key]] on a JSON object. *)
Fixpoint assoc (key : str) (fields : list (str * JSON)) : option JSON :=
  match fields with
  | [] => None
  | (k, v) :: fields' => if str_eqb k key then Some v else assoc key fields'
  end.

Definition json_get (key : str) (j : JSON) : option JSON :=
  match j with
  | JObj fields => assoc key fields
  | JStr _ => None
  end.

(** A [JSONResponse]; [status_code] defaults to 200. *)
Record JSONResponse : Type := {
  status_code : Z;
  content : JSON
}.

(** The state of the services the process depends on.  No handler of
    [main.py] receives or reads it; it is part of the environment a
    request is served in. *)
Record Dependencies : Type := {
  database_reachable : bool;
  cache_reachable : bool
}.

(** The environment of a request: the module-level [settings] object
    and the state of the outside world. *)
Record Env : Type := {
  env_settings : Settings;
  env_deps : Dependencies
}.

(** [docs_url] and [redoc_url] passed to the [FastAPI] constructor
    ([None] disables the page). *)
Definition docs_url (settings : Settings) : option str :=
  if is_development settings then Some (lit "/docs") else None.

Definition redoc_url (settings : Settings) : option str :=
  if is_development settings then Some (lit "/redoc") else None.

(** [health_check()]. *)
Definition health_check (env : Env) : JSONResponse :=
  let settings := env_settings env in
  {| status_code := 200;
     content :=
       JObj [(lit "status", JStr (lit "healthy"));
             (lit "service", JStr (app_name settings));
             (lit "version", JStr (app_version settings));
             (lit "environment", JStr (environment settings))] |}.

(** [readiness_check()]. *)
Definition readiness_check (env : Env) : JSONResponse :=
  let settings := env_settings env in
  {| status_code := 200;
     content :=
       JObj [(lit "status", JStr (lit "ready"));
             (lit "service", JStr (app_name settings));
             (lit "checks",
              JObj [(lit "database", JStr (lit "ok"));
                    (lit "cache", JStr (lit "ok"))])] |}.

(** [root()]; FastAPI serialises the returned [dict] as a JSON body. *)
Definition root (env : Env) : JSONResponse :=
  let settings := env_settings env in
  {| status_code := 200;
     content :=
       JObj [(lit "message",
              JStr (lit "Welcome to " ++ app_name settings ++ lit " API"));
             (lit "version", JStr (app_version settings));
             (lit "docs",
              JStr (if is_development settings then lit "/docs"
                    else lit "Documentation disabled in production"))] |}.

(** A request, as far as routing looks at it. *)
Record Request : Type := {
  req_path : str;
  req_headers : list (str * str);
  req_body : str
}.

(** The routes registered with [@app.get]; the mounted [/metrics]
    application and the generated documentation pages are outside the
    model. *)
Definition app_get (env : Env) (req : Request) : option JSONResponse :=
  if str_eqb (req_path req) (lit "/health") then Some (health_check env)
  else if str_eqb (req_path req) (lit "/ready") then Some (readiness_check env)
  else if str_eqb (req_path req) (lit "/") then Some (root env)
  else None.

(** [lifespan(_app)]: the lines printed before the [yield] (startup)
    and after it (shutdown). *)
Definition lifespan_startup (settings : Settings) : list str :=
  [lit "Starting " ++ app_name settings ++ lit " v" ++ app_version settings;
   lit "Environment: " ++ environment settings].

Definition lifespan_shutdown (settings : Settings) : list str :=
  [lit "Shutting down " ++ app_name settings].

(** Two settings objects that agree on the three fields the
    application shows: name, version and environment. *)
Definition same_public (s1 s2 : Settings) : Prop :=
  app_name s1 = app_name s2 ∧
  app_version s1 = app_version s2 ∧
  environment s1 = environment s2.

End main.

(** ** The mutation-and-consistency engine

    The repository has no code for this layer: the definitions of this
    module follow sections 3 and 4 of the specification. *)

Module core.

(** Modelled from the spec: the aggregate kinds of section 3 (no
    entity classes exist in the repository). *)
Inductive AggregateType : Type := Board | List | Card.

#[global] Instance AggregateType_eq_dec : EqDecision AggregateType.
Proof. solve_decision. Defined.

#[global] Instance AggregateType_countable : Countable AggregateType.
Proof.
  refine (inj_countable'
    (fun t => match t with Board => 0%nat | List => 1%nat | Card => 2%nat end)
    (fun n => match n with 0%nat => Board | 1%nat => List | _ => Card end) _).
  by intros [].
Defined.

(** Modelled from the spec: the opaque unique ids of section 3. *)
Abbreviation Id := N.

(** Modelled from the spec: what [load] addresses an aggregate by,
    [(aggregateType, id)]. *)
Abbreviation Key := (AggregateType * N)%type.

(** Modelled from the spec: the ownership part of an aggregate's state
    (section 3): a Board owns an ordered sequence of List ids, a List an
    ordered sequence of Card ids, a Card belongs to exactly one List. *)
Inductive Ownership : Type :=
  | BoardOwns (lists : list Id)
  | ListOwns (cards : list Id)
  | CardIn (owner_list : Id).

(** Modelled from the spec: the Aggregate of section 3: identity,
    tenant scope, mutable payload fields, the version stamp, timestamps
    and the soft-delete flag. *)
Record Aggregate : Type := {
  agg_id : Id;
  agg_scope : Id;
  agg_fields : list (str * str);
  agg_ownership : Ownership;
  agg_version : Z;
  agg_created_at : Z;
  agg_updated_at : Z;
  agg_deleted : bool
}.

(** Modelled from the spec: the kind of an aggregate, read off what
    it owns. *)
Definition agg_type (a : Aggregate) : AggregateType :=
  match agg_ownership a with
  | BoardOwns _ => Board
  | ListOwns _ => List
  | CardIn _ => Card
  end.

(** Modelled from the spec: the key an aggregate is stored under. *)
Definition agg_key (a : Aggregate) : Key := (agg_type a, agg_id a).

(** Modelled from the spec: the aggregate with another version
    stamp. *)
Definition with_version (v : Z) (a : Aggregate) : Aggregate :=
  {| agg_id := agg_id a;
     agg_scope := agg_scope a;
     agg_fields := agg_fields a;
     agg_ownership := agg_ownership a;
     agg_version := v;
     agg_created_at := agg_created_at a;
     agg_updated_at := agg_updated_at a;
     agg_deleted := agg_deleted a |}.

(** Modelled from the spec: semantic equality of two aggregates
    (section 8, round trip): equal in everything but the version stamp,
    which the round trip increments. *)
Definition sem_eq (a b : Aggregate) : Prop :=
  with_version 0 a = with_version 0 b.

(** Modelled from the spec: the error taxonomy of section 7. *)
Inductive Error : Type :=
  | NotFound
  | ValidationError
  | ConflictError
  | StorageUnavailable
  | Unauthorized
  | DispatchFailure.

(** Modelled from the spec: the typed result of an operation: a
    value or an error of the taxonomy. *)
Inductive Result (A : Type) : Type :=
  | Ok (a : A)
  | Err (e : Error).
Arguments Ok {A} a.
Arguments Err {A} e.

(** Modelled from the spec: the event type tags of section 3 and the
    [*.deleted] tags of the board-deletion scenario of section 8; the
    spec's list is open-ended, [other_event] stands for the tags it does
    not name. *)
Inductive EventType : Type :=
  | card_created | card_moved | card_updated | card_deleted
  | list_created | list_reordered | list_deleted
  | board_created | board_deleted
  | other_event (tag : str).

(** Modelled from the spec: the dispatch status of an event. *)
Inductive DispatchStatus : Type := pending | dispatched | failed.

(** Modelled from the spec: the DomainEvent of section 3. *)
Record DomainEvent : Type := {
  event_id : N;
  event_aggregate : Id;
  event_type : EventType;
  event_snapshot : list (str * str);
  causal_version : Z;
  event_status : DispatchStatus
}.

(** Modelled from the spec: a status transition of an event; the
    content is not touched. *)
Definition with_status (st : DispatchStatus) (e : DomainEvent) : DomainEvent :=
  {| event_id := event_id e;
     event_aggregate := event_aggregate e;
     event_type := event_type e;
     event_snapshot := event_snapshot e;
     causal_version := causal_version e;
     event_status := st |}.

(** *** Repository (section 4.2) *)

(** Modelled from the spec: the version the storage engine holds for
    a key.  A key that was never written counts as version 0: the first
    save of an aggregate expects 0, and the stored version is the number
    of committed writes (section 8). *)
Definition stored_version (aggs : gmap Key Aggregate) (k : Key) : Z :=
  match aggs !! k with
  | Some a => agg_version a
  | None => 0
  end.

(** Modelled from the spec: [load(aggregateType, id) -> (Aggregate,
    version)], which fails with [NotFound] if the aggregate is absent or
    soft-deleted. *)
Definition load (aggs : gmap Key Aggregate) (ty : AggregateType) (id : Id)
    : Result (Aggregate * Z) :=
  match aggs !! (ty, id) with
  | Some a => if agg_deleted a then Err NotFound else Ok (a, agg_version a)
  | None => Err NotFound
  end.

(** Modelled from the spec: [save(aggregate, expectedVersion) ->
    newVersion], a compare-and-swap on the version field: the write
    happens only if the stored version equals [expectedVersion], and then
    stores the aggregate under the next version; otherwise the storage is
    left as it is and the call fails with [ConflictError]. *)
Definition save (aggs : gmap Key Aggregate) (a : Aggregate) (expectedVersion : Z)
    : gmap Key Aggregate * Result Z :=
  if decide (stored_version aggs (agg_key a) = expectedVersion) then
    let newVersion := expectedVersion + 1 in
    (<[agg_key a := with_version newVersion a]> aggs, Ok newVersion)
  else (aggs, Err ConflictError).

(** *** Concurrent writers

    The storage engine makes each conditional write atomic (section
    4.2), so the saves of concurrent Units of Work take effect one after
    the other in some order. *)

(** Modelled from the spec: one writer's save: the state it wants to
    store and the version it observed when it loaded. *)
Record Writer : Type := {
  w_aggregate : Aggregate;
  w_expected : Z
}.

(** Modelled from the spec: one committed write: the version
    observed and the version stored. *)
Record Commit : Type := {
  c_key : Key;
  c_observed : Z;
  c_new : Z
}.

(** Modelled from the spec: a schedule is the order in which the
    saves of concurrent writers reach the storage engine; running it
    gives the final storage and the commits, in order. *)
Fixpoint run_schedule (aggs : gmap Key Aggregate) (ws : list Writer)
    : gmap Key Aggregate * list Commit :=
  match ws with
  | [] => (aggs, [])
  | w :: ws' =>
      match save aggs (w_aggregate w) (w_expected w) with
      | (aggs1, Ok nv) =>
          let (aggs2, cs) := run_schedule aggs1 ws' in
          (aggs2,
           {| c_key := agg_key (w_aggregate w);
              c_observed := w_expected w;
              c_new := nv |} :: cs)
      | (aggs1, Err _) => run_schedule aggs1 ws'
      end
  end.

(** Modelled from the spec: the commits of a schedule on one
    aggregate. *)
Definition commits_on (k : Key) (cs : list Commit) : list Commit :=
  filter (fun c => c_key c = k) cs.

(** *** Storage transactions (section 6) *)

(** Modelled from the spec: the storage engine's durable state: the
    aggregates collection and the outbox collection. *)
Record Database : Type := {
  db_aggregates : gmap Key Aggregate;
  db_outbox : list DomainEvent
}.

(** Modelled from the spec: a storage transaction with atomic
    multi-row commit (section 6): the writes of the transaction go to a
    working state next to the state the transaction started from. *)
Record Transaction : Type := {
  tx_base : Database;
  tx_work : Database
}.

(** Modelled from the spec: opening a transaction on the durable
    state. *)
Definition begin (db : Database) : Transaction :=
  {| tx_base := db; tx_work := db |}.

(** Modelled from the spec: commit makes all writes of the
    transaction durable in one step. *)
Definition commit (tx : Transaction) : Database := tx_work tx.

(** Modelled from the spec: rollback leaves the durable state as the
    transaction found it. *)
Definition rollback (tx : Transaction) : Database := tx_base tx.

(** Modelled from the spec: [Repository.save] inside a transaction
    (the compare-and-swap happens within the same transaction as any other
    writes). *)
Definition tx_save (tx : Transaction) (a : Aggregate) (expectedVersion : Z)
    : Transaction * Result Z :=
  let (aggs, r) := save (db_aggregates (tx_work tx)) a expectedVersion in
  ({| tx_base := tx_base tx;
      tx_work := {| db_aggregates := aggs;
                    db_outbox := db_outbox (tx_work tx) |} |}, r).

(** *** Outbox Writer (section 4.4) *)

(** Modelled from the spec: [record(transaction, events)] persists
    the events with status [pending] in the transaction. *)
Definition record (tx : Transaction) (events : list DomainEvent) : Transaction :=
  {| tx_base := tx_base tx;
     tx_work := {| db_aggregates := db_aggregates (tx_work tx);
                   db_outbox := db_outbox (tx_work tx)
                                ++ map (with_status pending) events |} |}.

(** Modelled from the spec: the outbox rows that carry a given event
    id. *)
Definition rows_of (id : N) (outbox : list DomainEvent) : list DomainEvent :=
  filter (fun r => event_id r = id) outbox.

(** *** Cache Coordinator (section 4.3) *)

(** Modelled from the spec: [invalidate(aggregateType, id)] deletes
    the cache key. *)
Definition invalidate (cache : gmap Key Aggregate) (ty : AggregateType) (id : Id)
    : gmap Key Aggregate :=
  delete (ty, id) cache.

(** *** Unit of Work (section 4.6) *)

(** Modelled from the spec: a command: the verified principal, the
    target aggregate and the mutation to apply; the mutation function
    returns the new state and the events it implies, or [None] for a
    [ValidationError]. *)
Record Command : Type := {
  cmd_principal : Id;
  cmd_type : AggregateType;
  cmd_id : Id;
  cmd_mutate : Aggregate -> option (Aggregate * list DomainEvent)
}.

(** Modelled from the spec: the configuration value passed to the
    Unit of Work: the bound on the attempts of one command. *)
Record Config : Type := {
  max_attempts : nat
}.

(** Modelled from the spec: what the Unit of Work runs against: the
    storage engine and the cache service. *)
Record System : Type := {
  sys_db : Database;
  sys_cache : gmap Key Aggregate
}.

(** Modelled from the spec: one load-mutate-save cycle as it was
    run: the durable state the cycle loaded from, the version and the
    aggregate state it passed to [save], and what [save] answered. *)
Record Attempt : Type := {
  at_loaded_from : Database;
  at_expected : Z;
  at_saving : Aggregate;
  at_saved : Result Z
}.

(** Modelled from the spec: what [execute] leaves behind: the
    storage and cache, the typed result, and the cycles it ran. *)
Record Outcome : Type := {
  out_system : System;
  out_result : Result (Aggregate * Z);
  out_attempts : list Attempt
}.

(** Modelled from the spec: the [Aborted] state: the error is
    surfaced, nothing was written. *)
Definition aborted (sys : System) (e : Error) : Outcome :=
  {| out_system := sys; out_result := Err e; out_attempts := [] |}.

(** Modelled from the spec: a cycle followed by what came after
    it. *)
Definition and_then (a : Attempt) (o : Outcome) : Outcome :=
  {| out_system := out_system o;
     out_result := out_result o;
     out_attempts := a :: out_attempts o |}.

(** Modelled from the spec: the cycle of [execute].  [others i] is
    what the other writers commit between the load and the save of the
    cycle number [i] (no lock is held between the two, section 5);
    [attempts] is the number of cycles still allowed.  A cycle loads from
    storage, applies the mutation, saves with the version observed at
    load time, and on success records the events, commits and invalidates
    the cache entry; on [ConflictError] the transaction is rolled back
    and the whole cycle runs again with a fresh load; every other failure
    aborts.  When no cycle is allowed any more the conflict is surfaced. *)
Fixpoint cycle (others : nat -> Database -> Database) (cmd : Command)
    (attempts : nat) (i : nat) (sys : System) : Outcome :=
  match attempts with
  | O => aborted sys ConflictError
  | S attempts' =>
      match load (db_aggregates (sys_db sys)) (cmd_type cmd) (cmd_id cmd) with
      | Err e => aborted sys e
      | Ok (a, v) =>
          match cmd_mutate cmd a with
          | None => aborted sys ValidationError
          | Some (a', events) =>
              let tx := begin (others i (sys_db sys)) in
              let (tx1, r) := tx_save tx a' v in
              let this := {| at_loaded_from := sys_db sys;
                             at_expected := v;
                             at_saving := a';
                             at_saved := r |} in
              match r with
              | Ok newVersion =>
                  let db' := commit (record tx1 events) in
                  let cache' :=
                    invalidate (sys_cache sys) (cmd_type cmd) (cmd_id cmd) in
                  {| out_system := {| sys_db := db'; sys_cache := cache' |};
                     out_result := Ok (with_version newVersion a', newVersion);
                     out_attempts := [this] |}
              | Err ConflictError =>
                  and_then this
                    (cycle others cmd attempts' (S i)
                       {| sys_db := rollback tx1; sys_cache := sys_cache sys |})
              | Err e =>
                  and_then this
                    (aborted {| sys_db := rollback tx1;
                                sys_cache := sys_cache sys |} e)
              end
          end
      end
  end.

(** Modelled from the spec: [execute(command) -> Result]: the cycle,
    allowed [max_attempts] times. *)
Definition execute (cfg : Config) (others : nat -> Database -> Database)
    (cmd : Command) (sys : System) : Outcome :=
  cycle others cmd (max_attempts cfg) 0 sys.

(** Modelled from the spec: the storage after the other writers
    committed first in each of the first [k] cycles. *)
Fixpoint drift (others : nat -> Database -> Database) (k : nat) (db : Database)
    : Database :=
  match k with
  | O => db
  | S k' => others k' (drift others k' db)
  end.

(** Modelled from the spec: cycle number [i], started on the storage
    [db], receives [ConflictError] from [Repository.save]: the aggregate
    loads, the mutation is valid, and [save] of the mutated state with the
    loaded version, on the storage as the other writers left it, answers
    [ConflictError]. *)
Definition conflict_at (others : nat -> Database -> Database) (cmd : Command)
    (i : nat) (db : Database) : Prop :=
  exists a v a' events,
    load (db_aggregates db) (cmd_type cmd) (cmd_id cmd) = Ok (a, v) /\
    cmd_mutate cmd a = Some (a', events) /\
    (save (db_aggregates (others i db)) a' v).2 = Err ConflictError.

(** Modelled from the spec: a cycle that ended in a version
    conflict. *)
Definition conflicted (a : Attempt) : Prop := at_saved a = Err ConflictError.

(** Modelled from the spec: what a run of the cycle that started as
    cycle number [i] on [sys], with [attempts] cycles allowed, must leave
    in its log: at most [attempts] cycles; each loaded its aggregate from
    the storage it started on and passed to [save] the version stored
    there and the mutation of what it loaded; the result is
    [ConflictError] exactly when all [attempts] cycles conflicted; the
    first cycle loaded from [sys]; a cycle is followed by another one only
    after a conflict, and that one loads from the storage as the other
    writers left it. *)
Definition log_ok (others : nat -> Database -> Database) (cmd : Command)
    (attempts i : nat) (sys : System) (o : Outcome) : Prop :=
  (length (out_attempts o) <= attempts)%nat /\
  Forall (fun t => exists a events,
                     load (db_aggregates (at_loaded_from t))
                       (cmd_type cmd) (cmd_id cmd) = Ok (a, at_expected t) /\
                     cmd_mutate cmd a = Some (at_saving t, events))
         (out_attempts o) /\
  (out_result o = Err ConflictError <->
   length (out_attempts o) = attempts /\ Forall conflicted (out_attempts o)) /\
  (forall a, head (out_attempts o) = Some a -> at_loaded_from a = sys_db sys) /\
  (forall j a b, out_attempts o !! j = Some a -> out_attempts o !! S j = Some b ->
            conflicted a /\
            at_loaded_from b = others (i + j)%nat (at_loaded_from a)).

End core.

(** ** Concrete values used in the examples *)

Module examples.

Import core.

(** A card of list 2, soft-deleted or not. *)
Definition card (id : Id) (deleted : bool) : Aggregate :=
  {| agg_id := id; agg_scope := 1%N; agg_fields := [(lit "title", lit "t")];
     agg_ownership := CardIn 2%N; agg_version := 0;
     agg_created_at := 0; agg_updated_at := 0; agg_deleted := deleted |}.

(** The storage after card 7 was created: it is stored at version 1. *)
Definition db1 : Database :=
  {| db_aggregates := (save ∅ (card 7 false) 0).1; db_outbox := [] |}.

Definition sys1 : System := {| sys_db := db1; sys_cache := ∅ |}.

(** Another writer that commits a write to card 7. *)
Definition bump (db : Database) : Database :=
  {| db_aggregates :=
       (save (db_aggregates db) (card 7 false)
          (stored_version (db_aggregates db) (Card, 7%N))).1;
     db_outbox := db_outbox db |}.

(** Other writers: none; one that always commits first; one that
    commits first in the first cycle only. *)
Definition quiet (i : nat) (db : Database) : Database := db.

Definition busy (i : nat) (db : Database) : Database := bump db.

Definition once (i : nat) (db : Database) : Database :=
  match i with
  | O => bump db
  | S _ => db
  end.

Definition updated (a : Aggregate) : DomainEvent :=
  {| event_id := 100 + Z.to_N (agg_version a);
     event_aggregate := agg_id a;
     event_type := card_updated;
     event_snapshot := agg_fields a;
     causal_version := agg_version a + 1;
     event_status := pending |}.

(** A command on card 7 that keeps the state and emits one
    [card.updated] event. *)
Definition touch : Command :=
  {| cmd_principal := 1%N; cmd_type := Card; cmd_id := 7%N;
     cmd_mutate := fun a => Some (a, [updated a]) |}.

Definition three : Config := {| max_attempts := 3 |}.

Definition ev1 : DomainEvent := updated (card 7 false).

Definition ev2 : DomainEvent := updated (with_version 1 (card 7 false)).

End examples.

(** * Properties *)

(** ** Strings: [split], [join] and [strip] *)

Section split_facts.

Context (sep : N).

Lemma split_not_nil (s : str) : split sep s ≠ [].
Proof.
  destruct s as [|c s]; simpl; [done|].
  destruct (c =? sep)%N; [done|].
  by destruct (split sep s).
Qed.

(** Joining the pieces with the separator gives the string back. *)
Lemma join_split (s : str) : join sep (split sep s) = s.
Proof.
  induction s as [|c s IH]; simpl; [done|].
  destruct (N.eqb_spec c sep) as [->|Hne].
  - simpl. pose proof (split_not_nil s) as Hnil.
    destruct (split sep s) as [|p ps] eqn:E; [done|].
    by rewrite IH.
  - pose proof (split_not_nil s) as Hnil.
    destruct (split sep s) as [|p ps] eqn:E; [done|].
    destruct ps as [|q ps]; simpl in *; by rewrite <- IH.
Qed.

(** No piece contains the separator. *)
Lemma split_no_sep (s : str) : Forall (fun p => sep ∉ p) (split sep s).
Proof.
  induction s as [|c s IH]; simpl.
  - constructor; [|constructor]. by intros ?%elem_of_nil.
  - destruct (N.eqb_spec c sep) as [->|Hne].
    + constructor; [|done]. by intros ?%elem_of_nil.
    + destruct (split sep s) as [|p ps]; inversion IH; subst.
      * constructor; [|constructor].
        intros [?|?%elem_of_nil]%elem_of_cons; congruence.
      * constructor; [|done].
        intros [?|?]%elem_of_cons; [congruence|done].
Qed.

Lemma split_sep_free (p : str) : sep ∉ p → split sep p = [p].
Proof.
  induction p as [|c p IH]; simpl; [done|].
  intros Hc. destruct (N.eqb_spec c sep) as [->|Hne].
  - exfalso. apply Hc. by left.
  - rewrite IH; [done|]. intros ?. apply Hc. by right.
Qed.

Lemma split_app_sep (p rest : str) :
  sep ∉ p → split sep (p ++ sep :: rest) = p :: split sep rest.
Proof.
  induction p as [|c p IH]; simpl; intros Hc.
  - by rewrite N.eqb_refl.
  - destruct (N.eqb_spec c sep) as [->|Hne].
    + exfalso. apply Hc. by left.
    + rewrite IH; [done|]. intros ?. apply Hc. by right.
Qed.

(** The pieces are determined by these two facts: [split] inverts
    [join] on separator-free pieces. *)
Lemma split_join (ps : list str) :
  ps ≠ [] → Forall (fun p => sep ∉ p) ps → split sep (join sep ps) = ps.
Proof.
  induction ps as [|p ps IH]; [done|].
  intros _ Hall. inversion Hall as [|? ? Hp Hps]; subst.
  destruct ps as [|q ps].
  - simpl. by apply split_sep_free.
  - change (join sep (p :: q :: ps)) with (p ++ sep :: join sep (q :: ps)).
    rewrite split_app_sep; [|done]. by rewrite IH.
Qed.

End split_facts.

Lemma comma_pieces_split (s : str) : comma_pieces s (split comma s).
Proof.
  split; [apply split_not_nil|]. split; [apply split_no_sep|apply join_split].
Qed.

Lemma comma_pieces_unique (s : str) (ps : list str) :
  comma_pieces s ps → ps = split comma s.
Proof. intros (Hnil & Hall & <-). by rewrite split_join. Qed.

Lemma lstrip_blank_app (l t : str) : blank l → lstrip (l ++ t) = lstrip t.
Proof.
  induction 1 as [|c l Hc _ IH]; simpl; [done|]. by rewrite Hc.
Qed.

Lemma lstrip_blank (l : str) : blank l → lstrip l = [].
Proof.
  intros H. rewrite <- (app_nil_r l). by rewrite lstrip_blank_app.
Qed.

Lemma lstrip_id (t : str) :
  (∀ c, head t = Some c → isspace c = false) → lstrip t = t.
Proof.
  destruct t as [|c t]; simpl; [done|]. intros H. by rewrite (H c).
Qed.

Lemma lstrip_decompose (s : str) :
  ∃ l, s = l ++ lstrip s ∧ blank l ∧
       (∀ c, head (lstrip s) = Some c → isspace c = false).
Proof.
  induction s as [|c s (l & Hs & Hl & Hh)]; simpl.
  - exists []. repeat split; [constructor|done].
  - destruct (isspace c) eqn:Ec.
    + exists (c :: l). repeat split; [simpl; congruence|by constructor|done].
    + exists []. repeat split; [constructor|]. simpl. congruence.
Qed.

Lemma blank_reverse (l : str) : blank l → blank (reverse l).
Proof. unfold blank. rewrite !Forall_forall. intros H c Hc. apply H. by apply elem_of_reverse. Qed.

Lemma rstrip_app_blank (t r : str) : blank r → rstrip (t ++ r) = rstrip t.
Proof.
  intros H. unfold rstrip. rewrite reverse_app.
  by rewrite lstrip_blank_app; [|apply blank_reverse].
Qed.

Lemma rstrip_id (t : str) :
  (∀ c, last t = Some c → isspace c = false) → rstrip t = t.
Proof.
  intros H. unfold rstrip. rewrite lstrip_id; [apply reverse_involutive|].
  intros c. rewrite head_reverse. apply H.
Qed.

Lemma rstrip_decompose (s : str) :
  ∃ r, s = rstrip s ++ r ∧ blank r ∧
       (∀ c, last (rstrip s) = Some c → isspace c = false).
Proof.
  destruct (lstrip_decompose (reverse s)) as (l & Hs & Hl & Hh).
  exists (reverse l). split; [|split].
  - unfold rstrip. rewrite <- reverse_app, <- Hs. by rewrite reverse_involutive.
  - by apply blank_reverse.
  - intros c. unfold rstrip. rewrite last_reverse. apply Hh.
Qed.

(** [strip] removes the surrounding whitespace, and nothing else does. *)
Lemma stripped_strip (p : str) : stripped p (strip p).
Proof.
  destruct (lstrip_decompose p) as (l & Hp & Hl & Hh).
  destruct (rstrip_decompose (lstrip p)) as (r & Hq & Hr & Hlast).
  exists l, r. unfold strip. split; [|split; [done|split; [done|split; [|done]]]].
  - by rewrite <- Hq.
  - intros c Hc. apply Hh. rewrite Hq.
    destruct (rstrip (lstrip p)); [done|]. exact Hc.
Qed.

Lemma stripped_unique (p t : str) : stripped p t → t = strip p.
Proof.
  intros (l & r & -> & Hl & Hr & Hh & Hlast). unfold strip.
  rewrite lstrip_blank_app; [|done].
  destruct t as [|c t].
  - simpl. rewrite lstrip_blank; [|done]. done.
  - rewrite lstrip_id; [|intros c' [= <-]; by apply Hh].
    rewrite rstrip_app_blank; [|done]. by rewrite rstrip_id.
Qed.

Lemma strip_blank (s : str) : blank s → strip s = [].
Proof. intros H. unfold strip. by rewrite lstrip_blank. Qed.

Lemma blank_no_comma (s : str) : blank s → comma ∉ s.
Proof.
  unfold blank. rewrite Forall_forall. intros H Hc. by specialize (H _ Hc).
Qed.

(** ** [Settings] *)

Module settings_props.

Import settings.

Example parse_cors_origins_mixed :
  (parse_cors_origins (VStr (lit " http://a.io , ,http://b.io,"))).2
  = [lit "http://a.io"; lit "http://b.io"].
Proof. reflexivity. Qed.

Example parse_cors_origins_empty : (parse_cors_origins (VStr [])).2 = [].
Proof. reflexivity. Qed.

Example parse_cors_origins_inner_space :
  (parse_cors_origins (VStr (lit "a b"))).2 = [lit "a b"].
Proof. reflexivity. Qed.

(** The comprehension is a map followed by a filter. *)
Lemma comprehension_filter_map (ps : list str) :
  flat_map (fun origin => if truthy (strip origin) then [strip origin] else []) ps
  = filter (fun t => t ≠ []) (map strip ps).
Proof.
  induction ps as [|p ps IH]; simpl; [done|].
  rewrite IH. destruct (strip p) eqn:E; simpl.
  - by rewrite filter_cons_False; [|intros H; apply H].
  - by rewrite filter_cons_True.
Qed.

Lemma stripped_all_unique (ps ts : list str) :
  Forall2 stripped ps ts → ts = map strip ps.
Proof.
  induction 1 as [|p t ps ts Hpt _ IH]; simpl; [done|].
  by rewrite (stripped_unique p t Hpt), IH.
Qed.

(** C8. For a string input, [parse_cors_origins] returns the
    comma-separated pieces of the string, each with its surrounding
    whitespace stripped, without the pieces that are empty after
    stripping; so a string of whitespace only (the empty string included)
    gives the empty list.  A list input is returned unchanged. *)
Theorem parse_cors_origins_pieces :
  (∀ (s : str) (ps ts : list str),
      comma_pieces s ps → Forall2 stripped ps ts →
      (parse_cors_origins (VStr s)).2 = filter (fun t => t ≠ []) ts) ∧
  (∀ s : str, blank s → (parse_cors_origins (VStr s)).2 = []) ∧
  (∀ l : list str, (parse_cors_origins (VList l)).2 = l).
Proof.
  split; [|split].
  - intros s ps ts Hps Hts. simpl.
    rewrite (stripped_all_unique _ _ Hts), (comma_pieces_unique _ _ Hps).
    apply comprehension_filter_map.
  - intros s Hs. simpl.
    rewrite split_sep_free; [|by apply blank_no_comma].
    simpl. by rewrite strip_blank.
  - done.
Qed.

Lemma parse_cors_origins_pieces_witness :
  (parse_cors_origins (VStr (lit " a.io, ,b.io"))).2 = [lit "a.io"; lit "b.io"] ∧
  (parse_cors_origins (VStr (lit "  "))).2 = [].
Proof.
  destruct parse_cors_origins_pieces as (Hstr & Hblank & _).
  split.
  - rewrite (Hstr (lit " a.io, ,b.io")
               [lit " a.io"; lit " "; lit "b.io"]
               [lit "a.io"; []; lit "b.io"]).
    + reflexivity.
    + exact (comma_pieces_split (lit " a.io, ,b.io")).
    + repeat constructor.
      * exact (stripped_strip (lit " a.io")).
      * exact (stripped_strip (lit " ")).
      * exact (stripped_strip (lit "b.io")).
  - apply Hblank. repeat constructor.
Defined.

Example is_development_default :
  is_development (defaults [] [] [] [] [] []) = true.
Proof. reflexivity. Qed.

Lemma str_eqb_eq (a b : str) : str_eqb a b = true ↔ a = b.
Proof. unfold str_eqb. by rewrite bool_decide_eq_true. Qed.

(** C9. [is_development] holds exactly when [environment] is the
    string "development" and [is_production] exactly when it is
    "production"; the two are never both true; for "staging" and for
    "Development" both are false.  The documentation pages of the
    application are enabled exactly in development. *)
Theorem environment_flags :
  (∀ s : Settings,
      (is_development s = true ↔ environment s = lit "development") ∧
      (is_production s = true ↔ environment s = lit "production") ∧
      (environment s ≠ lit "development" → environment s ≠ lit "production" →
       is_development s = false ∧ is_production s = false) ∧
      ¬ (is_development s = true ∧ is_production s = true) ∧
      (main.docs_url s = Some (lit "/docs") ↔ is_development s = true) ∧
      (main.docs_url s = None ↔ is_development s = false)) ∧
  (∀ s : Settings,
      is_development (with_environment (lit "staging") s) = false ∧
      is_production (with_environment (lit "staging") s) = false ∧
      is_development (with_environment (lit "Development") s) = false ∧
      is_production (with_environment (lit "Development") s) = false).
Proof.
  split.
  - intros s. unfold main.docs_url, is_development, is_production.
    rewrite !str_eqb_eq.
    split; [done|]. split; [done|]. split; [|split; [|split]].
    + intros Hd Hp. split; apply not_true_is_false; by rewrite str_eqb_eq.
    + intros [H1 H2]. rewrite H1 in H2. discriminate H2.
    + destruct (str_eqb _ _) eqn:E.
      * apply str_eqb_eq in E. by rewrite E.
      * split; [done|]. intros H. apply str_eqb_eq in H. congruence.
    + by destruct (str_eqb _ _).
  - intros s. by vm_compute.
Qed.

Lemma environment_flags_witness :
  is_development (with_environment (lit "test") (defaults [] [] [] [] [] [])) = false ∧
  is_production (with_environment (lit "test") (defaults [] [] [] [] [] [])) = false.
Proof.
  destruct environment_flags as [H _].
  destruct (H (with_environment (lit "test") (defaults [] [] [] [] [] [])))
    as (_ & _ & Hother & _).
  apply Hother; discriminate.
Defined.

End settings_props.

(** ** The health endpoints *)

Module main_props.

Import settings main.

Lemma ready_route (env : Env) (req : Request) :
  req_path req = lit "/ready" → app_get env req = Some (readiness_check env).
Proof. intros H. unfold app_get. by rewrite H. Qed.

(** C10. [readiness_check] answers "ready", with the database and
    cache checks "ok", in every environment: the answer does not depend
    on the state of the database or of the cache. *)
Theorem readiness_check_unconditional :
  ∀ env : Env,
    status_code (readiness_check env) = 200 ∧
    json_get (lit "status") (content (readiness_check env))
      = Some (JStr (lit "ready")) ∧
    json_get (lit "checks") (content (readiness_check env))
      = Some (JObj [(lit "database", JStr (lit "ok"));
                    (lit "cache", JStr (lit "ok"))]) ∧
    (∀ deps : Dependencies,
        readiness_check {| env_settings := env_settings env; env_deps := deps |}
        = readiness_check env) ∧
    (∀ req : Request,
        app_get env {| req_path := lit "/ready";
                       req_headers := req_headers req;
                       req_body := req_body req |}
        = Some (readiness_check env)).
Proof. intros env. repeat split. Qed.

End main_props.

(** ** Repository *)

Module core_props.

Import core examples.

Lemma stored_version_insert (aggs : gmap Key Aggregate) (k : Key) (a : Aggregate) :
  stored_version (<[k := a]> aggs) k = agg_version a.
Proof. unfold stored_version. by rewrite lookup_insert_eq. Qed.

Lemma stored_version_insert_ne (aggs : gmap Key Aggregate) (k k' : Key) (a : Aggregate) :
  k ≠ k' → stored_version (<[k := a]> aggs) k' = stored_version aggs k'.
Proof. intros H. unfold stored_version. by rewrite lookup_insert_ne. Qed.

(** The two answers of [save]. *)
Lemma save_match (aggs : gmap Key Aggregate) (a : Aggregate) (ev : Z) :
  stored_version aggs (agg_key a) = ev →
  save aggs a ev = (<[agg_key a := with_version (ev + 1) a]> aggs, Ok (ev + 1)).
Proof. intros H. unfold save. by rewrite decide_True. Qed.

Lemma save_mismatch (aggs : gmap Key Aggregate) (a : Aggregate) (ev : Z) :
  stored_version aggs (agg_key a) ≠ ev →
  save aggs a ev = (aggs, Err ConflictError).
Proof. intros H. unfold save. by rewrite decide_False. Qed.

Lemma save_ok_inv (aggs aggs' : gmap Key Aggregate) (a : Aggregate) (ev nv : Z) :
  save aggs a ev = (aggs', Ok nv) →
  stored_version aggs (agg_key a) = ev ∧ nv = ev + 1 ∧
  aggs' = <[agg_key a := with_version nv a]> aggs.
Proof.
  unfold save. case_decide; [|done]. intros [= <- <-]. done.
Qed.

Lemma save_err_inv (aggs aggs' : gmap Key Aggregate) (a : Aggregate) (ev : Z) (e : Error) :
  save aggs a ev = (aggs', Err e) →
  e = ConflictError ∧ aggs' = aggs ∧ stored_version aggs (agg_key a) ≠ ev.
Proof.
  unfold save. case_decide; [done|]. intros [= <- <-]. done.
Qed.

(** C1. [save] is a conditional write: it succeeds only if the stored
    version equals [expectedVersion] (and then it does succeed, stores
    the aggregate and returns the next version); when the stored version
    has advanced past [expectedVersion] it fails with [ConflictError];
    whenever it fails the error is [ConflictError] and the storage is
    left exactly as it was, so nothing is merged. *)
Theorem save_conditional :
  ∀ (aggs : gmap Key Aggregate) (a : Aggregate) (expectedVersion : Z),
    (∀ aggs' newVersion,
        save aggs a expectedVersion = (aggs', Ok newVersion) →
        stored_version aggs (agg_key a) = expectedVersion ∧
        newVersion = expectedVersion + 1 ∧
        aggs' = <[agg_key a := with_version newVersion a]> aggs) ∧
    (stored_version aggs (agg_key a) = expectedVersion →
        ∃ aggs', save aggs a expectedVersion = (aggs', Ok (expectedVersion + 1))) ∧
    (expectedVersion < stored_version aggs (agg_key a) →
        save aggs a expectedVersion = (aggs, Err ConflictError)) ∧
    (∀ aggs' e,
        save aggs a expectedVersion = (aggs', Err e) →
        e = ConflictError ∧ aggs' = aggs).
Proof.
  intros aggs a ev. split; [|split; [|split]].
  - intros aggs' nv. apply save_ok_inv.
  - intros Heq. eexists. by apply save_match.
  - intros Hlt. apply save_mismatch. lia.
  - intros aggs' e He. by destruct (save_err_inv _ _ _ _ _ He) as (-> & -> & _).
Qed.

Lemma save_conditional_witness :
  (∃ aggs', save ∅ (card 7 false) 0 = (aggs', Ok 1)) ∧
  save (<[(Card, 7%N) := with_version 4 (card 7 false)]> ∅) (card 7 false) 3
  = (<[(Card, 7%N) := with_version 4 (card 7 false)]> ∅, Err ConflictError).
Proof.
  split.
  - apply (save_conditional ∅ (card 7 false) 0). reflexivity.
  - apply (save_conditional
             (<[(Card, 7%N) := with_version 4 (card 7 false)]> ∅)
             (card 7 false) 3).
    vm_compute. reflexivity.
Defined.

(** In the model a soft-deleted aggregate does not round-trip: card 7
    is created, then its soft-deleted state is saved at the version
    loaded, and the load that follows answers [NotFound]. *)
Lemma save_load_soft_deleted :
  (save (save ∅ (card 7 false) 0).1 (card 7 true) 1).2 = Ok 2 ∧
  load (save (save ∅ (card 7 false) 0).1 (card 7 true) 1).1
    (agg_type (card 7 true)) (agg_id (card 7 true))
  = Err NotFound.
Proof. split; reflexivity. Qed.

(** Round trip in the model: after a successful [save] of an
    aggregate that is not soft-deleted, [load] of the same id returns an
    aggregate semantically equal to the saved one, at the version
    [expectedVersion + 1], which is the version [save] returned. *)
Theorem save_load_round_trip :
  ∀ (aggs aggs' : gmap Key Aggregate) (a : Aggregate) (expectedVersion newVersion : Z),
    save aggs a expectedVersion = (aggs', Ok newVersion) →
    agg_deleted a = false →
    ∃ a', load aggs' (agg_type a) (agg_id a) = Ok (a', expectedVersion + 1) ∧
          sem_eq a' a ∧
          agg_version a' = expectedVersion + 1 ∧
          newVersion = expectedVersion + 1.
Proof.
  intros aggs aggs' a ev nv Hsave Hlive.
  destruct (save_ok_inv _ _ _ _ _ Hsave) as (_ & -> & ->).
  exists (with_version (ev + 1) a). unfold load.
  change (agg_type a, agg_id a) with (agg_key a).
  rewrite lookup_insert_eq. simpl. rewrite Hlive. done.
Qed.

Lemma save_load_round_trip_witness :
  ∃ a', load (save ∅ (card 7 false) 0).1 Card 7%N = Ok (a', 0 + 1) ∧
        sem_eq a' (card 7 false) ∧ agg_version a' = 0 + 1 ∧ 1 = 0 + 1.
Proof.
  apply (save_load_round_trip ∅ (save ∅ (card 7 false) 0).1 (card 7 false) 0 1);
    reflexivity.
Defined.

(** *** Schedules of concurrent writers *)

Lemma save_other_key (aggs : gmap Key Aggregate) (a : Aggregate) (ev : Z) (k : Key) :
  agg_key a ≠ k →
  stored_version (save aggs a ev).1 k = stored_version aggs k.
Proof.
  intros Hk. unfold save. case_decide; simpl; [|done].
  by apply stored_version_insert_ne.
Qed.

Example schedule_two_writers :
  run_schedule ∅
    [ {| w_aggregate := card 7 false; w_expected := 0 |};
      {| w_aggregate := card 7 false; w_expected := 0 |};
      {| w_aggregate := card 7 false; w_expected := 1 |} ]
  = (<[(Card, 7%N) := with_version 2 (card 7 false)]> ∅,
     [ {| c_key := (Card, 7%N); c_observed := 0; c_new := 1 |};
       {| c_key := (Card, 7%N); c_observed := 1; c_new := 2 |} ]).
Proof. vm_compute. reflexivity. Qed.

(** Along a schedule the commits on one aggregate observe the versions
    [v0, v0 + 1, ...] in this order, where [v0] is the version stored
    before the schedule, and the version stored at the end is [v0] plus
    their number. *)
Lemma run_schedule_commits (k : Key) (ws : list Writer) :
  ∀ aggs : gmap Key Aggregate,
    let ck := commits_on k (run_schedule aggs ws).2 in
    stored_version (run_schedule aggs ws).1 k
      = stored_version aggs k + Z.of_nat (length ck) ∧
    c_observed <$> ck = seqZ (stored_version aggs k) (Z.of_nat (length ck)) ∧
    Forall (fun c => c_new c = c_observed c + 1) ck.
Proof.
  induction ws as [|w ws IH]; intros aggs; simpl.
  - split; [lia|]. split; [done|constructor].
  - destruct (decide (stored_version aggs (agg_key (w_aggregate w)) = w_expected w))
      as [Heq|Hne].
    + rewrite (save_match _ _ _ Heq).
      specialize (IH (<[agg_key (w_aggregate w)
                        := with_version (w_expected w + 1) (w_aggregate w)]> aggs)).
      destruct (run_schedule _ ws) as [aggs2 cs] eqn:Erun. simpl in *.
      unfold commits_on in *.
      destruct (decide (agg_key (w_aggregate w) = k)) as [Hk|Hk].
      * rewrite filter_cons_True by done. simpl.
        subst k. rewrite stored_version_insert in IH. simpl in IH.
        destruct IH as (IH1 & IH2 & IH3).
        split; [lia|]. split; [|by constructor].
        rewrite seqZ_cons by lia. rewrite Heq. f_equal.
        etransitivity; [exact IH2|]. f_equal; lia.
      * rewrite filter_cons_False by done.
        by rewrite stored_version_insert_ne in IH.
    + rewrite (save_mismatch _ _ _ Hne). apply IH.
Qed.

(** C2. For every schedule of concurrent writers and every aggregate:
    each committed write stores the version it observed plus one; the
    committed writes observed the versions [v0, v0 + 1, ...] in the order
    of their commits, so no two of them observed the same version, and
    the versions they stored are [v0 + 1, v0 + 2, ...] without a gap;
    the version stored at the end is [v0] plus the number of committed
    writes, which for an aggregate that did not exist before is the
    number of committed writes. *)
Theorem committed_versions_gap_free :
  ∀ (k : Key) (ws : list Writer) (aggs : gmap Key Aggregate),
    let ck := commits_on k (run_schedule aggs ws).2 in
    let v0 := stored_version aggs k in
    let n := Z.of_nat (length ck) in
    Forall (fun c => c_new c = c_observed c + 1) ck ∧
    c_observed <$> ck = seqZ v0 n ∧
    c_new <$> ck = seqZ (v0 + 1) n ∧
    NoDup (c_observed <$> ck) ∧
    stored_version (run_schedule aggs ws).1 k = v0 + n ∧
    (aggs !! k = None → stored_version (run_schedule aggs ws).1 k = n).
Proof.
  intros k ws aggs ck v0 n.
  destruct (run_schedule_commits k ws aggs) as (Hfinal & Hobs & Hstep).
  fold ck in Hfinal, Hobs, Hstep. fold v0 in Hfinal, Hobs. fold n in Hfinal, Hobs.
  split; [done|]. split; [done|]. split; [|split; [|split; [done|]]].
  - rewrite (Z.add_comm v0 1), <- fmap_add_seqZ, <- Hobs, <- list_fmap_compose.
    apply Forall_fmap_ext. eapply Forall_impl; [exact Hstep|].
    intros c Hc. unfold compose. simpl in Hc. lia.
  - rewrite Hobs. apply NoDup_seqZ.
  - intros Hnone. rewrite Hfinal. unfold v0, stored_version. rewrite Hnone. lia.
Qed.

Lemma committed_versions_gap_free_witness :
  (∅ : gmap Key Aggregate) !! (Card, 7%N) = None ∧
  stored_version
    (run_schedule ∅
       [ {| w_aggregate := card 7 false; w_expected := 0 |};
         {| w_aggregate := card 7 false; w_expected := 0 |};
         {| w_aggregate := card 7 false; w_expected := 1 |} ]).1 (Card, 7%N)
  = 2.
Proof.
  split; [reflexivity|].
  pose proof (committed_versions_gap_free (Card, 7%N)
                [ {| w_aggregate := card 7 false; w_expected := 0 |};
                  {| w_aggregate := card 7 false; w_expected := 0 |};
                  {| w_aggregate := card 7 false; w_expected := 1 |} ] ∅) as H.
  cbv zeta in H. destruct H as (_ & _ & _ & _ & _ & H).
  rewrite H; reflexivity.
Defined.

(** *** Outbox Writer *)

Lemma rows_of_app (id : N) (xs ys : list DomainEvent) :
  rows_of id (xs ++ ys) = rows_of id xs ++ rows_of id ys.
Proof. apply filter_app. Qed.

Lemma rows_of_absent (id : N) (events : list DomainEvent) :
  id ∉ event_id <$> events →
  rows_of id (map (with_status pending) events) = [].
Proof.
  induction events as [|e events IH]; simpl; [done|].
  intros Hid. apply not_elem_of_cons in Hid as [Hne Hid].
  unfold rows_of in *. rewrite filter_cons_False by (simpl; congruence).
  by apply IH.
Qed.

(** Among events with pairwise distinct ids, the rows written for the
    id of one of them are that event alone, with status [pending]. *)
Lemma rows_of_recorded (events : list DomainEvent) (e : DomainEvent) :
  NoDup (event_id <$> events) → e ∈ events →
  rows_of (event_id e) (map (with_status pending) events) = [with_status pending e].
Proof.
  induction events as [|x events IH]; simpl; intros Hnd He.
  - by apply elem_of_nil in He.
  - apply NoDup_cons in Hnd as [Hx Hnd].
    apply elem_of_cons in He as [->|He].
    + unfold rows_of. rewrite filter_cons_True by done.
      f_equal. by apply rows_of_absent.
    + unfold rows_of. rewrite filter_cons_False.
      * by apply IH.
      * simpl. intros Heq. apply Hx. rewrite Heq.
        by apply list_elem_of_fmap_2.
Qed.

(** In the model, let [record(transaction, events)] be called with
    events of pairwise distinct ids that the outbox does not hold yet.
    If the transaction commits, the outbox holds for each of these events
    exactly one row, the event with status [pending], together with the
    aggregate writes of the transaction; if it rolls back, the durable
    state is the one the transaction started from, with no row for any of
    the events.  Without the two conditions [record] writes an event as
    often as it is handed over. *)
Theorem record_atomic :
  ∀ (tx : Transaction) (events : list DomainEvent),
    NoDup (event_id <$> events) →
    (∀ e, e ∈ events →
          rows_of (event_id e) (db_outbox (tx_work tx)) = [] ∧
          rows_of (event_id e) (db_outbox (tx_base tx)) = []) →
    (∀ e, e ∈ events →
          rows_of (event_id e) (db_outbox (commit (record tx events)))
          = [with_status pending e]) ∧
    db_aggregates (commit (record tx events)) = db_aggregates (tx_work tx) ∧
    rollback (record tx events) = tx_base tx ∧
    (∀ e, e ∈ events →
          rows_of (event_id e) (db_outbox (rollback (record tx events))) = []).
Proof.
  intros tx events Hnd Hfresh. split; [|split; [done|split; [done|]]].
  - intros e He. simpl. rewrite rows_of_app.
    rewrite (proj1 (Hfresh e He)). simpl. by apply rows_of_recorded.
  - intros e He. simpl. apply (Hfresh e He).
Qed.

(** The aggregate save and the events of one transaction become
    durable together or not at all. *)
Lemma save_and_record_together
    (db : Database) (a : Aggregate) (ev nv : Z) (tx1 : Transaction)
    (events : list DomainEvent) :
  tx_save (begin db) a ev = (tx1, Ok nv) →
  db_aggregates (commit (record tx1 events)) !! agg_key a = Some (with_version nv a) ∧
  db_outbox (commit (record tx1 events))
    = db_outbox db ++ map (with_status pending) events ∧
  rollback (record tx1 events) = db.
Proof.
  unfold tx_save. simpl.
  destruct (save (db_aggregates db) a ev) as [aggs r] eqn:Es.
  intros [= <- ->].
  destruct (save_ok_inv _ _ _ _ _ Es) as (_ & _ & ->). simpl.
  by rewrite lookup_insert_eq.
Qed.

(** *** Unit of Work *)

Lemma tx_save_match (db : Database) (a : Aggregate) (ev : Z) :
  stored_version (db_aggregates db) (agg_key a) = ev →
  (tx_save (begin db) a ev).2 = Ok (ev + 1).
Proof. intros H. unfold tx_save. simpl. by rewrite (save_match _ _ _ H). Qed.

Lemma tx_save_mismatch (db : Database) (a : Aggregate) (ev : Z) :
  stored_version (db_aggregates db) (agg_key a) ≠ ev →
  (tx_save (begin db) a ev).2 = Err ConflictError ∧
  rollback (tx_save (begin db) a ev).1 = db.
Proof. intros H. unfold tx_save. simpl. by rewrite (save_mismatch _ _ _ H). Qed.

Lemma load_version (aggs : gmap Key Aggregate) (ty : AggregateType) (id : Id)
    (a : Aggregate) (v : Z) :
  load aggs ty id = Ok (a, v) → v = stored_version aggs (ty, id).
Proof.
  unfold load, stored_version. destruct (aggs !! (ty, id)) as [x|]; [|done].
  destruct (agg_deleted x); [done|]. by intros [= <- <-].
Qed.

Lemma tx_save_error (tx : Transaction) (a : Aggregate) (ev : Z) (e : Error) :
  (tx_save tx a ev).2 = Err e → e = ConflictError.
Proof.
  unfold tx_save. destruct (save _ a ev) as [aggs r] eqn:Es. simpl.
  intros ->. by destruct (save_err_inv _ _ _ _ _ Es) as (-> & _).
Qed.

Lemma load_error (aggs : gmap Key Aggregate) (ty : AggregateType) (id : Id) (e : Error) :
  load aggs ty id = @Err (Aggregate * Z) e → e = NotFound.
Proof.
  unfold load. destruct (aggs !! (ty, id)) as [x|]; [|congruence].
  destruct (agg_deleted x); congruence.
Qed.

Section cycle_log.

Context (others : nat → Database → Database) (cmd : Command).

Lemma log_ok_aborted (attempts i : nat) (sys : System) (e : Error) :
  e ≠ ConflictError → log_ok others cmd (S attempts) i sys (aborted sys e).
Proof.
  intros He. unfold log_ok; simpl.
  split; [lia|]. split; [constructor|]. split; [|split; [done|done]].
  split; [congruence|]. intros [? _]; lia.
Qed.

Lemma log_ok_surfaced (i : nat) (sys : System) :
  log_ok others cmd 0 i sys (aborted sys ConflictError).
Proof.
  unfold log_ok; simpl.
  split; [lia|]. split; [constructor|]. split; [|split; [done|done]].
  split; [|done]. intros _. split; [done|constructor].
Qed.

Lemma log_ok_saved (attempts i : nat) (sys sys' : System) (this : Attempt)
    (a : Aggregate) (events : list DomainEvent) (res : Aggregate * Z) :
  at_loaded_from this = sys_db sys →
  load (db_aggregates (sys_db sys)) (cmd_type cmd) (cmd_id cmd)
  = Ok (a, at_expected this) →
  cmd_mutate cmd a = Some (at_saving this, events) →
  ¬ conflicted this →
  log_ok others cmd (S attempts) i sys
    {| out_system := sys'; out_result := Ok res; out_attempts := [this] |}.
Proof.
  intros Hfrom Hload Hmut Hnc. unfold log_ok; simpl.
  split; [lia|]. split; [|split; [|split]].
  - constructor; [|constructor]. exists a, events. by rewrite Hfrom.
  - split; [done|]. intros [_ Hc]. by inversion Hc.
  - by intros ? [= <-].
  - intros j x y Hx Hy. destruct j; simpl in Hy; discriminate Hy.
Qed.

Lemma log_ok_retry (attempts i : nat) (sys sys' : System) (this : Attempt)
    (a : Aggregate) (events : list DomainEvent) (o : Outcome) :
  at_loaded_from this = sys_db sys →
  load (db_aggregates (sys_db sys)) (cmd_type cmd) (cmd_id cmd)
  = Ok (a, at_expected this) →
  cmd_mutate cmd a = Some (at_saving this, events) →
  conflicted this →
  sys_db sys' = others i (sys_db sys) →
  log_ok others cmd attempts (S i) sys' o →
  log_ok others cmd (S attempts) i sys (and_then this o).
Proof.
  intros Hfrom Hload Hmut Hc Hsys' (Hlen & Hvers & Hres & Hhead & Hnext).
  unfold log_ok; simpl.
  split; [lia|]. split; [|split; [|split]].
  - constructor; [|done]. exists a, events. by rewrite Hfrom.
  - rewrite Hres. split.
    + intros [Hl Hcs]. split; [lia|]. by constructor.
    + intros [Hl Hcs]. split; [lia|]. by inversion Hcs.
  - by intros ? [= <-].
  - intros j x y Hx Hy. destruct j as [|j]; simpl in Hx, Hy.
    + injection Hx as <-. split; [done|].
      rewrite Nat.add_0_r, Hfrom, <- Hsys'. apply Hhead.
      by destruct (out_attempts o).
    + replace (i + S j)%nat with (S i + j)%nat by lia. by apply Hnext.
Qed.

(** One cycle, by what [save] answers. *)
Lemma cycle_unfold (attempts i : nat) (sys : System) :
  cycle others cmd (S attempts) i sys =
  match load (db_aggregates (sys_db sys)) (cmd_type cmd) (cmd_id cmd) with
  | Err e => aborted sys e
  | Ok (a, v) =>
      match cmd_mutate cmd a with
      | None => aborted sys ValidationError
      | Some (a', events) =>
          let after := others i (sys_db sys) in
          let saved := save (db_aggregates after) a' v in
          let this := {| at_loaded_from := sys_db sys;
                         at_expected := v;
                         at_saving := a';
                         at_saved := saved.2 |} in
          match saved.2 with
          | Ok newVersion =>
              {| out_system :=
                   {| sys_db :=
                        {| db_aggregates := saved.1;
                           db_outbox := db_outbox after
                                        ++ map (with_status pending) events |};
                      sys_cache :=
                        invalidate (sys_cache sys) (cmd_type cmd) (cmd_id cmd) |};
                 out_result := Ok (with_version newVersion a', newVersion);
                 out_attempts := [this] |}
          | Err _ =>
              and_then this
                (cycle others cmd attempts (S i)
                   {| sys_db := after; sys_cache := sys_cache sys |})
          end
      end
  end.
Proof.
  simpl.
  destruct (load _ _ _) as [[a v]|e]; [|done].
  destruct (cmd_mutate cmd a) as [[a' events]|]; [|done].
  unfold tx_save; simpl.
  destruct (save _ a' v) as [aggs r] eqn:Es; simpl.
  destruct r as [nv|e]; [done|].
  by destruct (save_err_inv _ _ _ _ _ Es) as (-> & -> & _).
Qed.

Lemma cycle_attempts (attempts : nat) :
  ∀ (i : nat) (sys : System),
    log_ok others cmd attempts i sys (cycle others cmd attempts i sys).
Proof.
  induction attempts as [|attempts IH]; intros i sys; [apply log_ok_surfaced|].
  rewrite cycle_unfold.
  destruct (load _ _ _) as [[a v]|e] eqn:El;
    [|apply log_ok_aborted; by rewrite (load_error _ _ _ _ El)].
  destruct (cmd_mutate cmd a) as [[a' events]|] eqn:Em; [|by apply log_ok_aborted].
  cbv zeta.
  destruct (save _ a' v) as [aggs r] eqn:Es. simpl.
  destruct r as [nv|e].
  - by eapply log_ok_saved.
  - destruct (save_err_inv _ _ _ _ _ Es) as (-> & _ & _).
    eapply log_ok_retry; [done|done|done|done| |apply IH]. done.
Qed.

(** A cycle whose [save] receives [ConflictError] hands over to the
    next cycle, on the storage as the other writers left it. *)
Lemma cycle_conflict (attempts i : nat) (sys : System) :
  conflict_at others cmd i (sys_db sys) →
  let next := cycle others cmd attempts (S i)
                {| sys_db := others i (sys_db sys); sys_cache := sys_cache sys |} in
  out_result (cycle others cmd (S attempts) i sys) = out_result next ∧
  out_system (cycle others cmd (S attempts) i sys) = out_system next ∧
  length (out_attempts (cycle others cmd (S attempts) i sys))
  = S (length (out_attempts next)).
Proof.
  intros (a & v & a' & events & Hl & Hm & Hs). rewrite cycle_unfold, Hl, Hm.
  cbv zeta. by rewrite Hs.
Qed.

(** After [k] cycles that all received [ConflictError], what comes is
    the rest of the run, started as cycle number [k] on the storage the
    other writers have made. *)
Lemma cycle_conflicts (k : nat) :
  ∀ (attempts : nat) (sys : System),
    (∀ i, (i < k)%nat → conflict_at others cmd i (drift others i (sys_db sys))) →
    (k ≤ attempts)%nat →
    let o := cycle others cmd attempts 0 sys in
    let rest := cycle others cmd (attempts - k) k
                  {| sys_db := drift others k (sys_db sys);
                     sys_cache := sys_cache sys |} in
    out_result o = out_result rest ∧
    out_system o = out_system rest ∧
    length (out_attempts o) = (k + length (out_attempts rest))%nat.
Proof.
  induction k as [|k IH]; intros attempts sys Hconf Hk.
  - simpl. rewrite Nat.sub_0_r. by destruct sys.
  - destruct (IH attempts sys) as (Hr & Hs & Hl); [intros; apply Hconf; lia|lia|].
    cbv zeta. rewrite Hr, Hs, Hl.
    replace (attempts - k)%nat with (S (attempts - S k)) by lia.
    destruct (cycle_conflict (attempts - S k) k
                {| sys_db := drift others k (sys_db sys);
                   sys_cache := sys_cache sys |}) as (Hr' & Hs' & Hl').
    { simpl. apply Hconf. lia. }
    simpl in Hr', Hs', Hl'. simpl. rewrite Hr', Hs', Hl'.
    split; [done|]. split; [done|lia].
Qed.

End cycle_log.

Example execute_undisturbed :
  let o := execute three quiet touch sys1 in
  out_result o = Ok (with_version 2 (card 7 false), 2) ∧
  length (out_attempts o) = 1%nat ∧
  db_outbox (sys_db (out_system o)) = [ev2].
Proof. vm_compute. done. Qed.

Example execute_one_conflict :
  let o := execute three once touch sys1 in
  out_result o = Ok (with_version 3 (card 7 false), 3) ∧
  at_expected <$> out_attempts o = [1; 2] ∧
  at_saved <$> out_attempts o = [Err ConflictError; Ok 3].
Proof. vm_compute. done. Qed.

Example execute_conflict_persists :
  let o := execute three busy touch sys1 in
  out_result o = Err ConflictError ∧
  at_expected <$> out_attempts o = [1; 2; 3] ∧
  db_outbox (sys_db (out_system o)) = [].
Proof. vm_compute. done. Qed.

(** C4. [execute] always returns, after at most [max_attempts]
    load-mutate-save cycles.  Let the first [k] cycles receive
    [ConflictError] from [save].  If [k] is the bound, the result is
    [ConflictError] and nothing was written: the storage is as the other
    writers left it.  If [k] is below the bound, one more cycle runs, on
    a fresh load from the storage as the other writers left it: if its
    [save] succeeds the result is the saved state at the new version, and
    this state and the events are in the storage; if the aggregate is
    not found or the mutation is invalid, that error is the result, with
    no further cycle.  The log of the cycles says the same: a cycle is
    followed by another one only after a conflict, and each cycle saved
    the mutation of what it loaded itself, with the version it loaded. *)
Theorem execute_bounded_retry :
  ∀ (cfg : Config) (others : nat → Database → Database) (cmd : Command) (sys : System),
    let n := max_attempts cfg in
    let o := execute cfg others cmd sys in
    let at_cycle := fun k => drift others k (sys_db sys) in
    let conflicts_before := fun k =>
      ∀ i, (i < k)%nat → conflict_at others cmd i (at_cycle i) in
    (length (out_attempts o) ≤ n)%nat ∧
    (conflicts_before n →
       out_result o = Err ConflictError ∧
       length (out_attempts o) = n ∧
       out_system o = {| sys_db := at_cycle n; sys_cache := sys_cache sys |}) ∧
    (∀ k a v a' events aggs' newVersion,
       (k < n)%nat → conflicts_before k →
       load (db_aggregates (at_cycle k)) (cmd_type cmd) (cmd_id cmd) = Ok (a, v) →
       cmd_mutate cmd a = Some (a', events) →
       save (db_aggregates (others k (at_cycle k))) a' v = (aggs', Ok newVersion) →
       out_result o = Ok (with_version newVersion a', newVersion) ∧
       length (out_attempts o) = S k ∧
       sys_db (out_system o)
       = {| db_aggregates := aggs';
            db_outbox := db_outbox (others k (at_cycle k))
                         ++ map (with_status pending) events |}) ∧
    (∀ k e,
       (k < n)%nat → conflicts_before k →
       load (db_aggregates (at_cycle k)) (cmd_type cmd) (cmd_id cmd) = Err e →
       out_result o = Err e ∧
       length (out_attempts o) = k ∧
       out_system o = {| sys_db := at_cycle k; sys_cache := sys_cache sys |}) ∧
    (∀ k a v,
       (k < n)%nat → conflicts_before k →
       load (db_aggregates (at_cycle k)) (cmd_type cmd) (cmd_id cmd) = Ok (a, v) →
       cmd_mutate cmd a = None →
       out_result o = Err ValidationError ∧
       length (out_attempts o) = k ∧
       out_system o = {| sys_db := at_cycle k; sys_cache := sys_cache sys |}) ∧
    log_ok others cmd n 0 sys o.
Proof.
  intros cfg others cmd sys n o at_cycle conflicts_before.
  pose proof (cycle_attempts others cmd n 0 sys) as Hlog.
  fold (execute cfg others cmd sys) in Hlog. fold o in Hlog.
  split; [apply Hlog|]. split; [|split; [|split; [|split; [|done]]]].
  - intros Hconf.
    destruct (cycle_conflicts others cmd n n sys Hconf) as (Hr & Hs & Hl); [lia|].
    rewrite Nat.sub_diag in Hr, Hs, Hl. simpl in Hr, Hs, Hl.
    unfold o, execute. fold n. rewrite Hr, Hs, Hl. split; [done|]. split; [lia|done].
  - intros k a v a' events aggs' nv Hk Hconf Hload Hmut Hsave.
    destruct (cycle_conflicts others cmd k n sys Hconf) as (Hr & Hs & Hl); [lia|].
    replace (n - k)%nat with (S (n - S k)) in Hr, Hs, Hl by lia.
    rewrite cycle_unfold in Hr, Hs, Hl. simpl in Hr, Hs, Hl.
    fold (at_cycle k) in Hr, Hs, Hl.
    rewrite Hload, Hmut in Hr, Hs, Hl. cbv zeta in Hr, Hs, Hl.
    rewrite Hsave in Hr, Hs, Hl. simpl in Hr, Hs, Hl.
    unfold o, execute. fold n. rewrite Hr, Hs, Hl. split; [done|]. split; [lia|done].
  - intros k e Hk Hconf Hload.
    destruct (cycle_conflicts others cmd k n sys Hconf) as (Hr & Hs & Hl); [lia|].
    replace (n - k)%nat with (S (n - S k)) in Hr, Hs, Hl by lia.
    rewrite cycle_unfold in Hr, Hs, Hl. simpl in Hr, Hs, Hl.
    fold (at_cycle k) in Hr, Hs, Hl. rewrite Hload in Hr, Hs, Hl.
    simpl in Hr, Hs, Hl.
    unfold o, execute. fold n. rewrite Hr, Hs, Hl. split; [done|]. split; [lia|done].
  - intros k a v Hk Hconf Hload Hmut.
    destruct (cycle_conflicts others cmd k n sys Hconf) as (Hr & Hs & Hl); [lia|].
    replace (n - k)%nat with (S (n - S k)) in Hr, Hs, Hl by lia.
    rewrite cycle_unfold in Hr, Hs, Hl. simpl in Hr, Hs, Hl.
    fold (at_cycle k) in Hr, Hs, Hl. rewrite Hload, Hmut in Hr, Hs, Hl.
    simpl in Hr, Hs, Hl.
    unfold o, execute. fold n. rewrite Hr, Hs, Hl. split; [done|]. split; [lia|done].
Qed.

Lemma execute_bounded_retry_witness :
  out_result (execute three busy touch sys1) = Err ConflictError ∧
  out_result (execute three once touch sys1)
  = Ok (with_version 3 (with_version 2 (card 7 false)), 3).
Proof.
  split.
  - pose proof (execute_bounded_retry three busy touch sys1) as H.
    cbv zeta in H. destruct H as (_ & Hpersists & _).
    apply Hpersists.
    intros i Hi. destruct i as [|[|[|i]]]; [| | |simpl in Hi; lia].
    all: eexists _, _, _, _; split; [reflexivity|split; reflexivity].
  - pose proof (execute_bounded_retry three once touch sys1) as H.
    cbv zeta in H. destruct H as (_ & _ & Hsaved & _).
    apply (Hsaved 1%nat (with_version 2 (card 7 false)) 2
             (with_version 2 (card 7 false))
             [updated (with_version 2 (card 7 false))]
             (save (db_aggregates (bump db1)) (with_version 2 (card 7 false)) 2).1
             3).
    + simpl. lia.
    + intros i Hi. destruct i as [|i]; [|lia].
      eexists _, _, _, _; split; [reflexivity|split; reflexivity].
    + reflexivity.
    + reflexivity.
    + reflexivity.
Defined.

Lemma record_atomic_witness :
  rows_of (event_id ev1) (db_outbox (commit (record (begin db1) [ev1; ev2])))
  = [with_status pending ev1] ∧
  rollback (record (begin db1) [ev1; ev2]) = db1.
Proof.
  assert (Hnd : NoDup (event_id <$> [ev1; ev2])) by compute_done.
  assert (Hfresh : ∀ e, e ∈ [ev1; ev2] →
            rows_of (event_id e) (db_outbox (tx_work (begin db1))) = [] ∧
            rows_of (event_id e) (db_outbox (tx_base (begin db1))) = [])
    by (intros e _; split; reflexivity).
  destruct (record_atomic (begin db1) [ev1; ev2] Hnd Hfresh) as (Hrows & _ & Hback & _).
  split; [|exact Hback].
  apply Hrows. by left.
Defined.

End core_props.

(** ** More on [parse_cors_origins] and [get_settings] *)

Module settings_more.

Import settings.

(** [split] distributes over a separator between two strings. *)
Lemma split_app (sep : N) (s1 s2 : str) :
  split sep (s1 ++ sep :: s2) = split sep s1 ++ split sep s2.
Proof.
  induction s1 as [|c s1 IH]; simpl.
  - by rewrite N.eqb_refl.
  - destruct (c =? sep)%N; [by rewrite IH|].
    rewrite IH. pose proof (split_not_nil sep s1) as Hnil.
    by destruct (split sep s1).
Qed.

Lemma split_length (sep : N) (s : str) :
  length (split sep s) = S (length (filter (fun c => c = sep) s)).
Proof.
  induction s as [|c s IH]; simpl; [done|].
  destruct (N.eqb_spec c sep) as [->|Hne].
  - rewrite filter_cons_True by done. simpl. by rewrite IH.
  - rewrite filter_cons_False by done. rewrite <- IH.
    pose proof (split_not_nil sep s) as Hnil.
    by destruct (split sep s).
Qed.

Lemma strip_elem (p : str) (c : N) : c ∈ strip p → c ∈ p.
Proof.
  destruct (stripped_strip p) as (l & r & Hp & _).
  intros Hc. rewrite Hp. apply elem_of_app. right. apply elem_of_app. by left.
Qed.

Lemma strip_nil_blank (p : str) : strip p = [] ↔ blank p.
Proof.
  split; [|apply strip_blank].
  destruct (stripped_strip p) as (l & r & Hp & Hl & Hr & _).
  intros E. rewrite E in Hp. rewrite Hp. simpl. by apply Forall_app.
Qed.

Lemma clean_strip (p : str) : comma ∉ p → strip p ≠ [] → clean_origin (strip p).
Proof.
  intros Hp Hne. destruct (stripped_strip p) as (l & r & _ & _ & _ & Hh & Hl).
  split; [done|]. split; [|done].
  intros Hc. apply Hp. by apply strip_elem.
Qed.

Lemma strip_clean (t : str) : clean_origin t → strip t = t.
Proof.
  intros (_ & _ & Hh & Hl). symmetry. apply stripped_unique.
  exists [], []. rewrite app_nil_r. repeat split; try done; constructor.
Qed.

Lemma kept_elem (ps : list str) (t : str) :
  t ∈ kept ps ↔ ∃ p, p ∈ ps ∧ t = strip p ∧ t ≠ [].
Proof.
  unfold kept. rewrite list_elem_of_In, in_flat_map. split.
  - intros (p & Hp & Ht). exists p. apply list_elem_of_In in Hp.
    destruct (strip p) eqn:E; simpl in Ht; [done|].
    destruct Ht as [<-|[]]. done.
  - intros (p & Hp & -> & Hne). exists p. split; [by apply list_elem_of_In|].
    destruct (strip p); [done|]. by left.
Qed.

Lemma kept_clean (l : list str) : Forall clean_origin l → kept l = l.
Proof.
  induction 1 as [|t l Ht _ IH]; [done|].
  unfold kept in *. simpl. rewrite IH, (strip_clean t Ht).
  destruct Ht as (Hne & _). by destruct t.
Qed.

Lemma kept_nil (ps : list str) : kept ps = [] ↔ Forall blank ps.
Proof.
  induction ps as [|p ps IH]; [by split; [constructor|]|].
  unfold kept in *. simpl. rewrite Forall_cons, <- IH, <- strip_nil_blank.
  destruct (strip p); simpl; [tauto|]. split; [done|]. by intros [? _].
Qed.

Lemma blank_pieces (s : str) :
  Forall blank (split comma s) ↔ Forall filler s.
Proof.
  induction s as [|c s IH]; simpl.
  - split; intros _; repeat constructor.
  - rewrite Forall_cons, <- IH. unfold filler at 1.
    destruct (N.eqb_spec c comma) as [->|Hne].
    + rewrite Forall_cons. split; [tauto|]. intros [_ H]. split; [constructor|done].
    + pose proof (split_not_nil comma s) as Hnil.
      destruct (split comma s) as [|p ps]; [done|].
      rewrite !Forall_cons. unfold blank at 1. rewrite Forall_cons. tauto.
Qed.

Lemma join_clean_split (l : list str) :
  Forall clean_origin l → kept (split comma (join comma l)) = l.
Proof.
  intros Hl. destruct l as [|t l]; [done|].
  rewrite split_join; [by apply kept_clean|done|].
  eapply Forall_impl; [exact Hl|]. by intros x (_ & Hx & _).
Qed.

Lemma parsed_clean (s : str) : Forall clean_origin (kept (split comma s)).
Proof.
  apply Forall_forall. intros t (p & Hp & -> & Hne)%kept_elem.
  apply clean_strip; [|done].
  pose proof (split_no_sep comma s) as Hall.
  rewrite Forall_forall in Hall. by apply Hall.
Qed.

(** X1. Every origin that [parse_cors_origins] returns for a string
    input is non-empty, holds no comma and neither starts nor ends with
    whitespace. *)
Theorem parse_cors_origins_clean (s : str) :
  Forall clean_origin (parse_cors_origins (VStr s)).2.
Proof. apply parsed_clean. Qed.

(** X2. Joining origins with commas and parsing the string gives the
    origins back, provided each of them is non-empty, comma-free and
    without surrounding whitespace: on such lists the string form and the
    list form of the setting mean the same. *)
Theorem parse_cors_origins_join (l : list str) :
  Forall clean_origin l →
  (parse_cors_origins (VStr (join comma l))).2 = (parse_cors_origins (VList l)).2.
Proof. intros Hl. simpl. by apply join_clean_split. Qed.

Lemma parse_cors_origins_join_witness :
  (parse_cors_origins (VStr (join comma [lit "http://a.io"; lit "b c"]))).2
  = [lit "http://a.io"; lit "b c"].
Proof.
  apply (parse_cors_origins_join [lit "http://a.io"; lit "b c"]).
  repeat apply Forall_cons_2; [| |constructor].
  - apply (clean_strip (lit "http://a.io")); [compute_done|discriminate].
  - apply (clean_strip (lit "b c")); [compute_done|discriminate].
Defined.

(** X3. Parsing is idempotent through the string form: joining the
    parsed origins with commas and parsing again changes nothing. *)
Theorem parse_cors_origins_idempotent (s : str) :
  (parse_cors_origins (VStr (join comma (parse_cors_origins (VStr s)).2))).2
  = (parse_cors_origins (VStr s)).2.
Proof. simpl. apply join_clean_split, parsed_clean. Qed.

Lemma kept_app (ps qs : list str) : kept (ps ++ qs) = kept ps ++ kept qs.
Proof. unfold kept. apply flat_map_app. Qed.

(** X4. Parsing two strings put together with a comma gives the
    origins of the first followed by the origins of the second. *)
Theorem parse_cors_origins_app (s1 s2 : str) :
  (parse_cors_origins (VStr (s1 ++ comma :: s2))).2
  = (parse_cors_origins (VStr s1)).2 ++ (parse_cors_origins (VStr s2)).2.
Proof. simpl. rewrite split_app. apply kept_app. Qed.

Example parse_cors_origins_commas_only :
  (parse_cors_origins (VStr (lit " , ,,  "))).2 = [].
Proof. reflexivity. Qed.

(** X5. For a string input the result is the empty list exactly when
    the string consists of whitespace and commas only. *)
Theorem parse_cors_origins_nil (s : str) :
  (parse_cors_origins (VStr s)).2 = [] ↔ Forall filler s.
Proof. simpl. fold (kept (split comma s)). by rewrite kept_nil, blank_pieces. Qed.

Lemma kept_length (ps : list str) : (length (kept ps) ≤ length ps)%nat.
Proof.
  induction ps as [|p ps IH]; simpl; [done|].
  rewrite length_app. destruct (truthy (strip p)); simpl; lia.
Qed.

(** X6. A string input with [k] commas gives at most [k + 1]
    origins. *)
Theorem parse_cors_origins_length (s : str) :
  (length (parse_cors_origins (VStr s)).2
   ≤ S (length (filter (fun c => c = comma) s)))%nat.
Proof. simpl. rewrite <- split_length. apply kept_length. Qed.

Lemma strip_padded (p q : str) : padded p q → strip q = strip p.
Proof.
  intros (l & r & Hl & Hr & ->). symmetry. apply stripped_unique.
  destruct (stripped_strip p) as (l' & r' & Hp & Hl' & Hr' & Hh & Hlast).
  exists (l ++ l'), (r' ++ r). split; [|split; [|split; [|done]]].
  - rewrite Hp at 1. by rewrite <- !app_assoc.
  - by apply Forall_app.
  - by apply Forall_app.
Qed.

Lemma padded_no_comma (p q : str) : padded p q → comma ∉ p → comma ∉ q.
Proof.
  intros (l & r & Hl & Hr & ->) Hp.
  rewrite !elem_of_app. intros [H|[H|H]]; [|done|].
  - by apply (blank_no_comma l).
  - by apply (blank_no_comma r).
Qed.

(** X7. Whitespace around the pieces does not matter: if each piece
    of a comma-separated string is padded with whitespace in front and
    behind, the parsed origins stay the same. *)
Theorem parse_cors_origins_padding (ps qs : list str) :
  Forall (fun p => comma ∉ p) ps →
  Forall2 padded ps qs →
  (parse_cors_origins (VStr (join comma qs))).2
  = (parse_cors_origins (VStr (join comma ps))).2.
Proof.
  intros Hps Hpad. simpl.
  destruct Hpad as [|p q ps qs Hpq Hrest]; [done|].
  assert (Hall : Forall2 padded (p :: ps) (q :: qs)) by by constructor.
  assert (Hqs : Forall (fun q => comma ∉ q) (q :: qs)).
  { clear Hpq Hrest. induction Hall as [|x y xs ys Hxy _ IH]; [constructor|].
    inversion Hps; subst. constructor; [by eapply padded_no_comma|by apply IH]. }
  rewrite !split_join by done.
  clear Hps Hqs Hpq Hrest.
  induction Hall as [|x y xs ys Hxy _ IH]; [done|].
  simpl. by rewrite (strip_padded _ _ Hxy), IH.
Qed.

Lemma parse_cors_origins_padding_witness :
  (parse_cors_origins (VStr (lit " a.io ,b.io  "))).2
  = (parse_cors_origins (VStr (lit "a.io,b.io"))).2.
Proof.
  apply (parse_cors_origins_padding [lit "a.io"; lit "b.io"]
                                    [lit " a.io "; lit "b.io  "]).
  - repeat apply Forall_cons_2; [compute_done|compute_done|constructor].
  - repeat apply Forall2_cons_2; [| |constructor].
    + exists (lit " "), (lit " "). repeat split; repeat constructor.
    + exists [], (lit "  "). repeat split; repeat constructor.
Defined.

Lemma join_infix (sep : N) (ps : list str) (p : str) :
  p ∈ ps → ∃ l r, join sep ps = l ++ p ++ r.
Proof.
  induction ps as [|p0 ps IH]; [by intros ?%elem_of_nil|].
  intros [->|Hp]%elem_of_cons.
  - destruct ps as [|q ps].
    + exists [], []. simpl. by rewrite app_nil_r.
    + exists [], (sep :: join sep (q :: ps)). done.
  - destruct (IH Hp) as (l & r & Hj).
    destruct ps as [|q ps]; [by apply elem_of_nil in Hp|].
    exists (p0 ++ sep :: l), r.
    change (join sep (p0 :: q :: ps)) with (p0 ++ sep :: join sep (q :: ps)).
    rewrite Hj. by rewrite <- app_assoc.
Qed.

(** X14. Every origin returned for a string input is a contiguous
    part of that string: parsing removes characters around the origins
    and never changes or adds one. *)
Theorem parse_cors_origins_infix (s t : str) :
  t ∈ (parse_cors_origins (VStr s)).2 → ∃ l r, s = l ++ t ++ r.
Proof.
  simpl. intros (p & Hp & -> & _)%kept_elem.
  destruct (join_infix comma _ _ Hp) as (l & r & Hj).
  rewrite join_split in Hj.
  destruct (stripped_strip p) as (l' & r' & Hs & _).
  exists (l ++ l'), (r' ++ r). rewrite Hj. rewrite Hs at 1.
  by rewrite <- !app_assoc.
Qed.

Lemma parse_cors_origins_infix_witness :
  ∃ l r, lit " a.io , b.io" = l ++ lit "b.io" ++ r.
Proof.
  apply (parse_cors_origins_infix (lit " a.io , b.io") (lit "b.io")).
  compute_done.
Defined.

(** *** [get_settings] *)

Section cached.

Context {World : Type} (new_Settings : World → option Settings).

Lemma get_settings_calls_cached (ws : list World) (s : Settings) :
  get_settings_calls new_Settings ws (Some s) = replicate (length ws) (Some s).
Proof. induction ws as [|w ws IH]; simpl; [done|]. by rewrite IH. Qed.

(** X8. Once a call of [get_settings] has returned a settings object,
    every later call returns this same object, whatever the environment
    has become in between. *)
Theorem get_settings_stable (ws : list World) :
  ∀ (cache : option Settings) (i j : nat) (s : Settings) (r : option Settings),
    (i ≤ j)%nat →
    get_settings_calls new_Settings ws cache !! i = Some (Some s) →
    get_settings_calls new_Settings ws cache !! j = Some r →
    r = Some s.
Proof.
  induction ws as [|w ws IH]; intros cache i j s r Hij Hi Hj; [done|].
  simpl in Hi, Hj.
  destruct (get_settings new_Settings w cache) as [cache' x] eqn:Eg.
  destruct i as [|i].
  - simpl in Hi. injection Hi as ->.
    assert (cache' = Some s) as ->.
    { unfold get_settings in Eg. destruct cache; [congruence|].
      destruct (new_Settings w); congruence. }
    destruct j as [|j]; simpl in Hj; [congruence|].
    rewrite get_settings_calls_cached in Hj.
    apply lookup_replicate in Hj as [-> _]. done.
  - destruct j as [|j]; [lia|]. simpl in Hi, Hj.
    apply (IH cache' i j); [lia|done|done].
Qed.

(** X9. With an empty cache, an object that [get_settings] returns
    was built by [Settings()] in the environment of that call or of an
    earlier one: it may be older than the environment, never made up. *)
Theorem get_settings_first (ws : list World) (i : nat) (s : Settings) :
  get_settings_calls new_Settings ws None !! i = Some (Some s) →
  ∃ k w, (k ≤ i)%nat ∧ ws !! k = Some w ∧ new_Settings w = Some s.
Proof.
  revert i. induction ws as [|w ws IH]; intros i Hi; [done|].
  simpl in Hi. destruct (new_Settings w) as [s'|] eqn:En.
  - exists 0%nat, w. split; [lia|]. split; [done|].
    destruct i as [|i]; simpl in Hi; [congruence|].
    rewrite get_settings_calls_cached in Hi.
    apply lookup_replicate in Hi as [Hs _]. congruence.
  - destruct i as [|i]; simpl in Hi; [done|].
    destruct (IH i Hi) as (k & w' & Hk & Hw & Hs).
    exists (S k), w'. split; [lia|done].
Qed.

End cached.

Lemma get_settings_stable_witness :
  get_settings_calls
    (fun ok : bool => if ok then Some (defaults [] [] [] [] [] []) else None)
    [false; true; false] None !!! 2%nat
  = Some (defaults [] [] [] [] [] []).
Proof.
  apply (get_settings_stable
           (fun ok : bool => if ok then Some (defaults [] [] [] [] [] []) else None)
           [false; true; false] None 1 2); [lia|reflexivity|reflexivity].
Defined.

Lemma get_settings_first_witness :
  ∃ (k : nat) (w : bool), (k ≤ 2)%nat ∧ [false; true; false] !! k = Some w ∧
         (if w then Some (defaults [] [] [] [] [] []) else None)
         = Some (defaults [] [] [] [] [] []).
Proof.
  apply (get_settings_first
           (fun ok : bool => if ok then Some (defaults [] [] [] [] [] []) else None)
           [false; true; false] 2 (defaults [] [] [] [] [] [])).
  reflexivity.
Defined.

End settings_more.

(** ** More on the application of [main.py] *)

Module main_more.

Import settings main.

Lemma is_development_public (s1 s2 : Settings) :
  same_public s1 s2 → is_development s1 = is_development s2.
Proof. intros (_ & _ & He). unfold is_development. by rewrite He. Qed.

(** X10. What the application shows depends on three settings only:
    two environments whose settings agree on [app_name], [app_version]
    and [environment] give the same answer to every request, the same
    startup and shutdown lines and the same documentation URLs, whatever
    their secrets, URLs and other fields, and whatever the state of the
    database and of the cache. *)
Theorem public_fields_only (env1 env2 : Env) :
  same_public (env_settings env1) (env_settings env2) →
  (∀ req : Request, app_get env1 req = app_get env2 req) ∧
  lifespan_startup (env_settings env1) = lifespan_startup (env_settings env2) ∧
  lifespan_shutdown (env_settings env1) = lifespan_shutdown (env_settings env2) ∧
  docs_url (env_settings env1) = docs_url (env_settings env2) ∧
  redoc_url (env_settings env1) = redoc_url (env_settings env2).
Proof.
  intros Hpub. pose proof (is_development_public _ _ Hpub) as Hdev.
  destruct Hpub as (Hn & Hv & He).
  unfold app_get, health_check, readiness_check, root,
    lifespan_startup, lifespan_shutdown, docs_url, redoc_url.
  rewrite Hn, Hv, He, Hdev. done.
Qed.

Lemma public_fields_only_witness :
  app_get {| env_settings := defaults (lit "db") [] [] [] (lit "s3cret") [];
             env_deps := {| database_reachable := false; cache_reachable := false |} |}
          {| req_path := lit "/health"; req_headers := []; req_body := [] |}
  = app_get {| env_settings := defaults [] [] [] [] [] [];
               env_deps := {| database_reachable := true; cache_reachable := true |} |}
            {| req_path := lit "/health"; req_headers := []; req_body := [] |}.
Proof.
  apply (public_fields_only
           {| env_settings := defaults (lit "db") [] [] [] (lit "s3cret") [];
              env_deps := {| database_reachable := false; cache_reachable := false |} |}
           {| env_settings := defaults [] [] [] [] [] [];
              env_deps := {| database_reachable := true; cache_reachable := true |} |}).
  repeat split.
Defined.

(** X11. Whenever one of the handlers of [main.py] answers, the status
    code is 200: no route reports a failure. *)
Theorem handlers_always_200 (env : Env) (req : Request) (r : JSONResponse) :
  app_get env req = Some r → status_code r = 200.
Proof.
  unfold app_get.
  repeat (destruct (str_eqb (req_path req) _); [by intros [= <-]|]).
  done.
Qed.

Lemma handlers_always_200_witness :
  status_code
    (root {| env_settings := defaults [] [] [] [] [] [];
             env_deps := {| database_reachable := false; cache_reachable := false |} |})
  = 200.
Proof.
  apply (handlers_always_200
           {| env_settings := defaults [] [] [] [] [] [];
              env_deps := {| database_reachable := false; cache_reachable := false |} |}
           {| req_path := lit "/"; req_headers := []; req_body := [] |}).
  reflexivity.
Defined.

(** X12. The root endpoint and the documentation pages agree: when
    the documentation is enabled, [root] names its URL; when the
    environment is anything but "development", both documentation pages
    are off and [root] answers "Documentation disabled in production",
    also outside production. *)
Theorem root_docs_consistent (env : Env) :
  (∀ d : str, docs_url (env_settings env) = Some d →
              json_get (lit "docs") (content (root env)) = Some (JStr d)) ∧
  (environment (env_settings env) ≠ lit "development" →
     docs_url (env_settings env) = None ∧
     redoc_url (env_settings env) = None ∧
     json_get (lit "docs") (content (root env))
     = Some (JStr (lit "Documentation disabled in production"))).
Proof.
  unfold docs_url, redoc_url, root. simpl.
  destruct (is_development (env_settings env)) eqn:E.
  - split; [by intros d [= <-]|].
    intros Hne. exfalso. apply Hne.
    unfold is_development, str_eqb in E. by apply bool_decide_eq_true in E.
  - split; [done|]. done.
Qed.

Lemma root_docs_consistent_witness :
  json_get (lit "docs")
    (content (root {| env_settings :=
                        with_environment (lit "staging") (defaults [] [] [] [] [] []);
                      env_deps := {| database_reachable := true;
                                     cache_reachable := true |} |}))
  = Some (JStr (lit "Documentation disabled in production")).
Proof.
  apply (root_docs_consistent
           {| env_settings :=
                with_environment (lit "staging") (defaults [] [] [] [] [] []);
              env_deps := {| database_reachable := true;
                             cache_reachable := true |} |}).
  discriminate.
Defined.

(** X13. With the defaults of the class, whatever the six required
    fields are, the application is in development mode: both
    documentation pages are on and [is_production] is false. *)
Theorem defaults_development
    (database_url redis_url celery_broker_url celery_result_backend
     secret_key jwt_secret_key : str) :
  let s := defaults database_url redis_url celery_broker_url
             celery_result_backend secret_key jwt_secret_key in
  is_development s = true ∧ is_production s = false ∧
  docs_url s = Some (lit "/docs") ∧ redoc_url s = Some (lit "/redoc").
Proof. repeat split. Qed.

End main_more.
